(** * Vanilla Monte Carlo Tree Search: [P2/src/mcts_vanilla.py]

    A shallow embedding of the search engine of [mcts_vanilla.py] and the
    properties its specification states about it.

    Conventions of the embedding.
    - Python objects live in a store ([heap]), a list of [MCTSNode] records
      indexed by address; an [MCTSNode(...)] call allocates at the end.
    - Every function of the source is a computation in the monad [M]:
      it threads the [world] (store, number of random draws, printed lines)
      and ends with a value, a Python exception, or a fault of the model
      (fuel exhausted, or a reference that is not in the store).
    - [int] is [Z]; [float] is idealised as [R] (no rounding, no overflow);
      [dict] is [gmap], so the order in which a dict is iterated is not the
      insertion order; Python lists are lists.
    - [while] loops and the recursion of [backpropagate] take fuel; the
      interpreter's recursion limit is not modelled.
    - [random.choice] reads the next draw of a generator kept in the world. *)

From Stdlib Require Import ZArith Reals Lra Lia.
From stdpp Require Import base option list gmap.

(** ** Outcomes of running Python code *)

Inductive exn : Set :=
| TypeError | KeyError | IndexError | ValueError
| ZeroDivisionError | AssertionError | AttributeError.

(** Ways in which the model, not the program, stops. *)
Inductive fault : Set :=
| OutOfFuel      (* a loop or a recursion needed more steps than granted *)
| DanglingRef.   (* an address outside the store; Python references cannot dangle *)

Inductive outcome (A : Type) : Type :=
| Ok (a : A)
| Raise (e : exn)
| Abort (f : fault).

Arguments Ok {A} a.
Arguments Raise {A} e.
Arguments Abort {A} f.

(** Store addresses. *)
Definition addr := nat.

(** The bound methods of a board that the source mentions. *)
Inductive method : Set :=
| m_current_player | m_legal_actions | m_next_state | m_is_ended | m_points_values.

(** A positional parameter of a call: bound by the caller, or left out. *)
Inductive positional (A : Type) : Type :=
| Supplied (a : A)
| Missing.

Arguments Supplied {A} a.
Arguments Missing {A}.

(** Python orders tuples lexicographically, so [max] and [min] over
    [(ucb, action)] pairs compare actions when two scores tie. *)
Class ActionOrder (Action : Type) : Type :=
  action_ltb : Action -> Action -> bool.

Section Engine.

Context {State Action : Type} `{Countable Action} `{ActionOrder Action}.

(** ** The external collaborators *)

(** Modelled from the spec: [p2_t3.Board] is not part of the sources; section 6
    of the specification gives its contract. [points_values] is defined only on
    terminal states and maps a player identity to an outcome. *)
Record Board : Type := {
  current_player : State -> Z;
  legal_actions : State -> list Action;
  next_state : State -> Action -> State;
  is_ended : State -> bool;
  points_values : State -> option (gmap Z Z)
}.

(** Modelled from the spec: [mcts_node.MCTSNode] is not part of the sources;
    section 3 and 4.1 of the specification give its attributes. *)
Record MCTSNode : Type := {
  parent : option addr;
  parent_action : option Action;
  child_nodes : gmap Action addr;
  untried_actions : list Action;
  wins : Z;
  visits : Z
}.

(** The Python values whose dynamic type the source relies on. *)
Inductive value : Type :=
| VNone
| VBool (b : bool)
| VInt (z : Z)
| VNode (p : addr)
| VTuple (node : addr) (state : State)     (* the pair [(node, state)] *)
| VMethod (m : method).                    (* [board.m], not called *)

(** Truth value of an object in a condition. Nodes, non-empty tuples and
    bound methods define neither [__bool__] nor [__len__] returning zero. *)
Definition truthy (v : value) : bool :=
  match v with
  | VNone => false
  | VBool b => b
  | VInt z => negb (z =? 0)%Z
  | VNode _ => true
  | VTuple _ _ => true
  | VMethod _ => true
  end.

(** [z == v] for an integer [z]: only numbers can equal a number. *)
Definition int_eq (z : Z) (v : value) : bool :=
  match v with
  | VInt z' => (z =? z')%Z
  | VBool b => (z =? (if b then 1 else 0))%Z
  | _ => false
  end.

(** Values of the game that may be passed to a board method. *)
Inductive game_value : Type :=
| GState (s : State)
| GAction (a : Action).

(** ** The world and the monad *)

Record world : Type := World {
  heap : list MCTSNode;
  random_source : nat -> nat;        (* the seeded generator: its k-th draw *)
  draws : nat;                       (* calls made to [random.choice] so far *)
  stdout : list (option Action)      (* [print(f"Action chosen: {x}")], oldest first *)
}.

Definition M (A : Type) : Type := world -> outcome A * world.

Definition ret {A} (a : A) : M A := fun w => (Ok a, w).

Definition raise {A} (e : exn) : M A := fun w => (Raise e, w).

Definition abort {A} (f : fault) : M A := fun w => (Abort f, w).

Definition bind {A B} (c : M A) (k : A -> M B) : M B :=
  fun w =>
    match c w with
    | (Ok a, w') => k a w'
    | (Raise e, w') => (Raise e, w')
    | (Abort f, w') => (Abort f, w')
    end.

Notation "'do' x <- c ; k" := (bind c (fun x => k))
  (at level 10, x name, c at level 100, k at level 200).
Notation "'do_' c ; k" := (bind c (fun _ => k))
  (at level 10, c at level 100, k at level 200).

(** [for x in xs: ...] collecting results, as a list comprehension does. *)
Fixpoint mapM {A B} (f : A -> M B) (xs : list A) : M (list B) :=
  match xs with
  | [] => ret []
  | x :: rest =>
      do y <- f x;
      do ys <- mapM f rest;
      ret (y :: ys)
  end.

(** *** Store primitives *)

Definition deref (p : addr) : M MCTSNode :=
  fun w =>
    match heap w !! p with
    | Some n => (Ok n, w)
    | None => (Abort DanglingRef, w)
    end.

Definition store (p : addr) (n : MCTSNode) : M unit :=
  fun w => (Ok tt, World (<[p := n]> (heap w)) (random_source w) (draws w) (stdout w)).

(** [MCTSNode(parent, parent_action, action_list)]: no children, every legal
    action untried, no visits, no wins. *)
Definition new_MCTSNode (parent : option addr) (parent_action : option Action)
    (action_list : list Action) : M addr :=
  fun w =>
    (Ok (length (heap w)),
     World (heap w ++ [Build_MCTSNode parent parent_action ∅ action_list 0 0])
           (random_source w) (draws w) (stdout w)).

(** [random.choice(seq)]: IndexError on an empty sequence. *)
Definition choice {A} (seq : list A) : M A :=
  fun w =>
    match seq !! (random_source w (draws w) mod length seq) with
    | Some x => (Ok x, World (heap w) (random_source w) (S (draws w)) (stdout w))
    | None => (Raise IndexError, w)
    end.

(** [d[k]] on a dict. *)
Definition getitem (d : gmap Action addr) (k : Action) : M addr :=
  match d !! k with
  | Some v => ret v
  | None => raise KeyError
  end.

Definition print_action_chosen (a : option Action) : M unit :=
  fun w => (Ok tt, World (heap w) (random_source w) (draws w) (stdout w ++ [a])).

(** [board.next_state(...)]: the method declares [state] and [action]; a call
    that leaves a parameter unbound raises TypeError before the board runs.
    The board's contract covers a state followed by an action only; the
    source passes nothing else in both places at once. *)
Definition call_next_state (board : Board)
    (state action : positional game_value) : M State :=
  match state, action with
  | Supplied (GState s), Supplied (GAction a) => ret (next_state board s a)
  | _, _ => raise TypeError
  end.

(** ** Module constants *)

Definition num_nodes : nat := 1000.
Definition exploration_factor : R := 2.

(** ** [expand_leaf] (lines 42-63) *)

Definition expand_leaf (node : addr) (board : Board) (state : State) : M value :=
  if is_ended board state then ret (VBool false)
  else
    do n <- deref node;
    do action <- choice (untried_actions n);
    (* new_state = board.next_state(action): one argument for two parameters *)
    do new_state <- call_next_state board (Supplied (GAction action)) Missing;
    do child <- new_MCTSNode (Some node) (Some action) (legal_actions board new_state);
    do n' <- deref node;
    do_ store node
         (Build_MCTSNode (parent n') (parent_action n')
            (<[action := child]> (child_nodes n'))
            (untried_actions n') (wins n') (visits n'));
    ret (VTuple child new_state).

(** ** [ucb] (lines 95-123) *)

(** One round of the loop over [node.child_nodes.values()]. Dividing by a
    zero visit count raises ZeroDivisionError; [sqrt] of a negative count
    raises ValueError. *)
Fixpoint ucb_children (exploration_estimate_top : R) (children : list addr)
    (max_win_ratio : R) : M R :=
  match children with
  | [] => ret max_win_ratio
  | child :: rest =>
      do c <- deref child;
      if (visits c =? 0)%Z then raise ZeroDivisionError
      else
        let child_win_ratio := (IZR (wins c) / IZR (visits c))%R in
        if (visits c <? 0)%Z then raise ValueError
        else
          let exploration_estimate_bottom := sqrt (IZR (visits c)) in
          let win_ratio :=
            (child_win_ratio + exploration_estimate_top / exploration_estimate_bottom)%R in
          ucb_children exploration_estimate_top rest
            (if Rgt_dec win_ratio max_win_ratio then win_ratio else max_win_ratio)
  end.

(** [math.log] raises ValueError outside the positive numbers. *)
Definition ucb (node : addr) (is_opponent : bool) : M R :=
  do n <- deref node;
  if (visits n <=? 0)%Z then raise ValueError
  else
    let exploration_estimate_top :=
      (exploration_factor * sqrt (ln (IZR (visits n))))%R in
    do max_win_ratio <-
      ucb_children exploration_estimate_top (map_to_list (child_nodes n)).*2 0%R;
    ret (if is_opponent then max_win_ratio else (1 - max_win_ratio)%R).

(** ** [traverse_nodes] (lines 10-40) *)

(** Order of Python tuples [(score, action)]. *)
Definition tuple_ltb (x y : R * Action) : bool :=
  if Rlt_dec x.1 y.1 then true
  else if Rlt_dec y.1 x.1 then false
  else action_ltb x.2 y.2.

(** [max(seq)] and [min(seq)]: the first extremal element; ValueError on an
    empty sequence. *)
Definition py_max (seq : list (R * Action)) : M (R * Action) :=
  match seq with
  | [] => raise ValueError
  | x :: rest => ret (fold_left (fun best y => if tuple_ltb best y then y else best) rest x)
  end.

Definition py_min (seq : list (R * Action)) : M (R * Action) :=
  match seq with
  | [] => raise ValueError
  | x :: rest => ret (fold_left (fun best y => if tuple_ltb y best then y else best) rest x)
  end.

(** The loop condition is [not board.is_ended]: the bound method itself, not
    its result on [state]. Likewise [bot_identity == board.current_player]
    compares an integer with a bound method. *)
Fixpoint traverse_nodes (fuel : nat) (node : addr) (board : Board) (state : State)
    (bot_identity : Z) : M value :=
  if negb (truthy (VMethod m_is_ended)) then
    match fuel with
    | O => abort OutOfFuel
    | S fuel' =>
        do n <- deref node;
        if bool_decide (child_nodes n = ∅) then expand_leaf node board state
        else
          let bots_turn := int_eq bot_identity (VMethod m_current_player) in
          do ucbs <-
            mapM (fun action =>
                    do child <- getitem (child_nodes n) action;
                    do score <- ucb child bots_turn;
                    ret (score, action))
                 (untried_actions n);
          do best <- (if bots_turn then py_max ucbs else py_min ucbs);
          let best_action := best.2 in
          do node' <- getitem (child_nodes n) best_action;
          do state' <-
            call_next_state board (Supplied (GState state)) (Supplied (GAction best_action));
          traverse_nodes fuel' node' board state' bot_identity
    end
  else ret (VTuple node state).

(** A call of [traverse_nodes]: four parameters, none with a default. *)
Definition call_traverse_nodes (fuel : nat) (node : positional addr)
    (board : positional Board) (state : positional State)
    (bot_identity : positional Z) : M value :=
  match node, board, state, bot_identity with
  | Supplied n, Supplied b, Supplied s, Supplied i => traverse_nodes fuel n b s i
  | _, _, _, _ => raise TypeError
  end.

(** ** [rollout] (lines 66-80) *)

Fixpoint rollout (fuel : nat) (board : Board) (state : State) : M State :=
  if negb (truthy (VMethod m_is_ended)) then
    match fuel with
    | O => abort OutOfFuel
    | S fuel' =>
        do action <- choice (legal_actions board state);
        do state' <-
          call_next_state board (Supplied (GState state)) (Supplied (GAction action));
        rollout fuel' board state'
    end
  else ret state.

(** ** [backpropagate] (lines 82-93) *)

Definition add_wins (p : addr) (delta : Z) : M unit :=
  do n <- deref p;
  store p (Build_MCTSNode (parent n) (parent_action n) (child_nodes n)
             (untried_actions n) (wins n + delta) (visits n)).

Definition add_visits (p : addr) (delta : Z) : M unit :=
  do n <- deref p;
  store p (Build_MCTSNode (parent n) (parent_action n) (child_nodes n)
             (untried_actions n) (wins n) (visits n + delta)).

Definition parent_value (n : MCTSNode) : value :=
  match parent n with
  | Some q => VNode q
  | None => VNone
  end.

(** [fuel] bounds the depth of the recursion. A truthy argument that is not
    a node has no attribute [wins]. *)
Fixpoint backpropagate (fuel : nat) (node : value) (won : bool) : M unit :=
  if truthy node then
    match node with
    | VNode p =>
        match fuel with
        | O => abort OutOfFuel
        | S fuel' =>
            do_ add_wins p (if won then 1 else -1)%Z;
            do_ add_visits p 1%Z;
            do n <- deref p;
            backpropagate fuel' (parent_value n) (negb won)
        end
    | _ => raise AttributeError
    end
  else ret tt.

(** ** [get_best_action] (lines 125-144) *)

Fixpoint get_best_action_loop (root_node : addr) (actions : list Action)
    (max_ucb : R) (best_action : option Action) : M (option Action) :=
  match actions with
  | [] => ret best_action
  | action :: rest =>
      do r <- deref root_node;
      do child <- getitem (child_nodes r) action;
      do child_ucb <- ucb child true;
      if Rgt_dec child_ucb max_ucb
      then get_best_action_loop root_node rest child_ucb (Some action)
      else get_best_action_loop root_node rest max_ucb best_action
  end.

Definition get_best_action (root_node : addr) : M (option Action) :=
  do r <- deref root_node;
  get_best_action_loop root_node (untried_actions r) 0%R None.

(** ** [is_win] (lines 146-150) *)

Definition is_win (board : Board) (state : State) (identity_of_bot : Z) : M bool :=
  match points_values board state with
  | None => raise AssertionError
  | Some outcome =>
      match outcome !! identity_of_bot with
      | Some points => ret (points =? 1)%Z
      | None => raise KeyError
      end
  end.

(** ** [think] (lines 152-181) *)

(** The body of [for _ in range(num_nodes)]. [traverse_nodes(root_node)]
    supplies one of four arguments; its result, not the node alone, is what
    the name [node] is bound to afterwards. *)
Definition think_iteration (fuel : nat) (board : Board) (current_state : State)
    (bot_identity : Z) (root_node : addr) : M unit :=
  let state := current_state in
  let node : value := VNode root_node in
  do node <- call_traverse_nodes fuel (Supplied root_node) Missing Missing Missing;
  do state <- rollout fuel board state;
  do sim <- is_win board state bot_identity;
  backpropagate fuel node sim.

Fixpoint for_range (n : nat) (body : M unit) : M unit :=
  match n with
  | O => ret tt
  | S k => do_ body; for_range k body
  end.

(** [think] with the module constant [num_nodes] set to [budget]. *)
Definition think_for (budget fuel : nat) (board : Board) (current_state : State)
    : M (option Action) :=
  let bot_identity := current_player board current_state in
  do root_node <- new_MCTSNode None None (legal_actions board current_state);
  do_ for_range budget (think_iteration fuel board current_state bot_identity root_node);
  do best_action <- get_best_action root_node;
  do_ print_action_chosen best_action;
  ret best_action.

Definition think (fuel : nat) (board : Board) (current_state : State)
    : M (option Action) :=
  think_for num_nodes fuel board current_state.

End Engine.

Arguments Board : clear implicits.
Arguments MCTSNode Action {_ _}.
Arguments value : clear implicits.
Arguments game_value : clear implicits.
Arguments world Action {_ _}.
Arguments M Action {_ _} A.

(** * What the specification speaks about *)

Section Specification.

Context {State Action : Type} `{Countable Action}.

(** ** Node accounting (specification, section 8, property 1) *)

(** A node standing for [state] accounts for the legal actions there: the
    untried actions and the expanded children add up to the legal actions,
    and each legal action is on exactly one of the two sides. *)
Definition accounted (board : Board State Action) (state : State)
    (n : MCTSNode Action) : Prop :=
  length (untried_actions n) + size (child_nodes n)
    = length (legal_actions board state)
  ∧ ∀ a, a ∈ legal_actions board state →
      (a ∈ untried_actions n ∧ child_nodes n !! a = None)
      ∨ ((a ∉ untried_actions n) ∧ is_Some (child_nodes n !! a)).

(** The world after a series of [expand_leaf(node, board, state)] calls, each
    on its own: a call that raises leaves the world as it was at the raise. *)
Definition expansions (board : Board State Action) (calls : list (addr * State))
    (w : world Action) : world Action :=
  foldl (λ w' c, snd (expand_leaf (fst c) board (snd c) w')) w calls.

(** ** Paths to the root (specification, section 8, property 2) *)

(** [ancestors h p path]: following parent references from [p] visits
    exactly [path], which starts at [p] and ends at a node without parent. *)
Inductive ancestors (h : list (MCTSNode Action)) : addr -> list addr -> Prop :=
| ancestors_root p n :
    h !! p = Some n -> parent n = None -> ancestors h p [p]
| ancestors_step p n q path :
    h !! p = Some n -> parent n = Some q -> ancestors h q path ->
    ancestors h p (p :: path).

(** One backpropagation step at a node: the win counter moves by one in the
    direction of [won], the visit counter goes up by one. *)
Definition bump (won : bool) (n : MCTSNode Action) : MCTSNode Action :=
  Build_MCTSNode (parent n) (parent_action n) (child_nodes n) (untried_actions n)
    (wins n + (if won then 1 else -1)) (visits n + 1).

(** How often [p] occurs on [path]. *)
Definition occurrences (p : addr) (path : list addr) : nat :=
  length (filter (λ q, q = p) path).

(** ** The UCB formula (specification, section 4.2) *)

(** [c.wins / c.visits + exploration_factor * sqrt(ln(node.visits)) / sqrt(c.visits)] *)
Definition ratio (n c : MCTSNode Action) : R :=
  (IZR (wins c) / IZR (visits c)
   + exploration_factor * sqrt (ln (IZR (visits n))) / sqrt (IZR (visits c)))%R.

(** [c] is one of the children registered at [n]. *)
Definition child_of (w : world Action) (n c : MCTSNode Action) : Prop :=
  ∃ a p, child_nodes n !! a = Some p ∧ heap w !! p = Some c.

(** [m] is the maximum over the children [c] of [n] of [ratio n c]. *)
Definition max_child_ratio (w : world Action) (n : MCTSNode Action) (m : R) : Prop :=
  (∃ c, child_of w n c ∧ m = ratio n c)
  ∧ ∀ c, child_of w n c → (ratio n c <= m)%R.

(** [m] is the maximum of zero and of [ratio n c] over the children [c]. *)
Definition max_zero_child_ratio (w : world Action) (n : MCTSNode Action) (m : R)
    : Prop :=
  (m = 0%R ∨ ∃ c, child_of w n c ∧ m = ratio n c)
  ∧ (0 <= m)%R
  ∧ ∀ c, child_of w n c → (ratio n c <= m)%R.

(** The node at [node] has been visited, and so has each of its children. *)
Definition visited (w : world Action) (node : addr) (n : MCTSNode Action) : Prop :=
  heap w !! node = Some n
  ∧ (0 < visits n)%Z
  ∧ ∀ a p, child_nodes n !! a = Some p →
      ∃ c, heap w !! p = Some c ∧ (0 < visits c)%Z.

(** The formula as the specification gives it. *)
Definition ucb_as_specified (w : world Action) (node : addr) (is_opponent : bool)
    : Prop :=
  ∀ n, visited w node n →
    ∃ m, max_child_ratio w n m
      ∧ ucb node is_opponent w = (Ok (if is_opponent then m else (1 - m)%R), w).

End Specification.

(** * Small games used below *)

(** Actions are numbers, ordered as numbers. *)
#[global] Instance nat_ActionOrder : ActionOrder nat := Nat.ltb.

(** A single-move game: at [Start] player 1 has the one action [0], which
    ends the game in [Won], a win for player 1. *)
Inductive position : Set := Start | Won.

Definition one_move_board : Board position nat := {|
  current_player := λ _, 1%Z;
  legal_actions := λ s, match s with Start => [0] | Won => [] end;
  next_state := λ _ _, Won;
  is_ended := λ s, match s with Start => false | Won => true end;
  points_values := λ s,
    match s with
    | Start => None
    | Won => Some (<[1%Z := 1%Z]> (<[2%Z := (-1)%Z]> ∅))
    end
|}.

(** Nothing allocated, nothing drawn, nothing printed. *)
Definition empty_world : world nat := World [] (λ k, k) 0 [].

(** The tree of a search at [Start] before its first iteration. *)
Definition root_only : world nat :=
  World [Build_MCTSNode None None ∅ [0] 0 0] (λ k, k) 0 [].

(** A root visited once whose only child, under action [0], was visited once
    and lost. *)
Definition lost_root : MCTSNode nat := Build_MCTSNode None None (<[0 := 1]> ∅) [] 1 1.
Definition lost_child : MCTSNode nat := Build_MCTSNode (Some 0) (Some 0) ∅ [] (-1) 1.
Definition lost_once : world nat := World [lost_root; lost_child] (λ k, k) 0 [].

(** The way from the child of [lost_once] up to its root. *)
Definition lost_path : list addr := [1; 0].

(** * Further notions *)

Section Further.

Context {State Action : Type} `{Countable Action}.

(** What a backpropagation along [path] that starts with [won] adds to the
    win counter of [p]: the sign flips at every step up. *)
Fixpoint win_delta (won : bool) (p : addr) (path : list addr) : Z :=
  match path with
  | [] => 0
  | q :: rest =>
      ((if decide (q = p) then (if won then 1 else -1) else 0)
       + win_delta (negb won) p rest)%Z
  end.

(** The counters of a node fit together: no more wins or losses than
    visits, and wins and visits of the same parity. *)
Definition counters_fit (n : MCTSNode Action) : Prop :=
  (- visits n ≤ wins n ≤ visits n)%Z ∧ Z.even (wins n + visits n) = true.

(** A series of [backpropagate(node, won)] calls, one after the other. *)
Fixpoint backpropagations (fuel : nat) (calls : list (addr * bool))
    : M Action unit :=
  match calls with
  | [] => ret tt
  | call :: rest =>
      bind (backpropagate (State := State) fuel (VNode (fst call)) (snd call))
           (λ _, backpropagations fuel rest)
  end.

(** [s] is the score that [get_best_action] computes for the action [a] of
    the node [r]: [ucb(r.child_nodes[a], True)]. *)
Definition scored (w : world Action) (r : MCTSNode Action) (a : Action) (s : R)
    : Prop :=
  ∃ child, child_nodes r !! a = Some child ∧ ucb child true w = (Ok s, w).

End Further.

(** A visited root whose only child has not been visited yet. *)
Definition unvisited_child : world nat :=
  World [Build_MCTSNode None None (<[0 := 1]> ∅) [] 1 1;
         Build_MCTSNode (Some 0) (Some 0) ∅ [] 0 0]
        (λ k, k) 0 [].

(** Three generations: the root still lists action [0] as untried although
    it has a child for it; that child was visited twice and has a child of
    its own, visited once and won. *)
Definition top_node : MCTSNode nat := Build_MCTSNode None None (<[0 := 1]> ∅) [0] 0 2.
Definition middle_node : MCTSNode nat :=
  Build_MCTSNode (Some 0) (Some 0) (<[0 := 2]> ∅) [] 0 2.
Definition bottom_node : MCTSNode nat := Build_MCTSNode (Some 1) (Some 0) ∅ [] 1 1.
Definition three_generations : world nat :=
  World [top_node; middle_node; bottom_node] (λ k, k) 0 [].

(** * Properties of the engine *)

Section Properties.

Context {State Action : Type} `{Countable Action} `{ActionOrder Action}.

Implicit Types (board : Board State Action) (w : world Action) (state : State).
Implicit Types (h : list (MCTSNode Action)) (n c : MCTSNode Action) (p q : addr).

(** ** The two loops never run *)

Lemma rollout_returns_state fuel board state w :
  rollout fuel board state w = (Ok state, w).
Proof. destruct fuel; reflexivity. Qed.

Lemma traverse_nodes_returns_pair fuel node board state bot_identity w :
  traverse_nodes fuel node board state bot_identity w = (Ok (VTuple node state), w).
Proof. destruct fuel; reflexivity. Qed.

(** ** [expand_leaf] never changes the store *)

Lemma choice_nonempty {A} (x : A) xs w :
  ∃ y, y ∈ x :: xs ∧
    choice (x :: xs) w
    = (Ok y, World (heap w) (random_source w) (S (draws w)) (stdout w)).
Proof.
  unfold choice.
  destruct ((x :: xs) !! (random_source w (draws w) mod length (x :: xs)))
    as [y|] eqn:E.
  - exists y. split; [by eapply list_elem_of_lookup_2 | done].
  - apply lookup_ge_None in E.
    pose proof (Nat.mod_upper_bound (random_source w (draws w)) (length (x :: xs))).
    simpl in *. lia.
Qed.

Lemma expand_leaf_terminal node board state w :
  is_ended board state = true →
  expand_leaf node board state w = (Ok (VBool false), w).
Proof. intros E. unfold expand_leaf. by rewrite E. Qed.

Lemma expand_leaf_nonterminal node board state w n :
  is_ended board state = false →
  heap w !! node = Some n →
  expand_leaf node board state w =
    match untried_actions n with
    | [] => (Raise IndexError, w)
    | _ :: _ =>
        (Raise TypeError, World (heap w) (random_source w) (S (draws w)) (stdout w))
    end.
Proof.
  intros E Hn. unfold expand_leaf. rewrite E.
  unfold bind at 1, deref. rewrite Hn.
  destruct (untried_actions n) as [|a rest].
  - reflexivity.
  - destruct (choice_nonempty a rest w) as (y & _ & Hy).
    unfold bind at 1. rewrite Hy. reflexivity.
Qed.

Lemma expand_leaf_heap node board state w :
  heap (expand_leaf node board state w).2 = heap w.
Proof.
  destruct (is_ended board state) eqn:E.
  - by rewrite expand_leaf_terminal.
  - destruct (heap w !! node) as [n|] eqn:Hn.
    + rewrite (expand_leaf_nonterminal node board state w n E Hn).
      by destruct (untried_actions n).
    + unfold expand_leaf. rewrite E. unfold bind at 1, deref. by rewrite Hn.
Qed.

Lemma expansions_heap board calls w :
  heap (expansions board calls w) = heap w.
Proof.
  unfold expansions. revert w.
  induction calls as [|c calls IH]; intros w; [done|].
  simpl. rewrite IH. apply expand_leaf_heap.
Qed.

(** ** [think] *)

Lemma think_iteration_raises fuel board current_state bot_identity root_node w :
  think_iteration fuel board current_state bot_identity root_node w
  = (Raise TypeError, w).
Proof. reflexivity. Qed.

Lemma think_for_positive_budget budget fuel board current_state w :
  think_for (S budget) fuel board current_state w
  = (Raise TypeError,
     World (heap w ++ [Build_MCTSNode None None ∅ (legal_actions board current_state) 0 0])
           (random_source w) (draws w) (stdout w)).
Proof. reflexivity. Qed.

(** A call that returns had no iteration to run and no action to score. *)
Lemma think_for_completed budget fuel board current_state w best w' :
  think_for budget fuel board current_state w = (Ok best, w') →
  budget = 0 ∧ best = None
  ∧ heap w' = heap w ++ [Build_MCTSNode None None ∅ [] 0 0].
Proof.
  destruct budget as [|budget]; [|by rewrite think_for_positive_budget].
  unfold think_for. unfold bind at 1. cbn [new_MCTSNode for_range].
  unfold bind at 1. cbn [ret]. unfold bind at 1.
  unfold get_best_action. unfold bind at 1, deref at 1. cbn [heap].
  rewrite lookup_app_r, Nat.sub_diag by lia. cbn [lookup list_lookup untried_actions].
  destruct (legal_actions board current_state) as [|a rest].
  - cbn. intros [= <- <-]. done.
  - cbn [get_best_action_loop]. unfold bind at 1, deref at 1. cbn [heap].
    rewrite lookup_app_r, Nat.sub_diag by lia. cbn [lookup list_lookup child_nodes].
    unfold bind at 1, getitem. rewrite lookup_empty. discriminate.
Qed.

(** ** [backpropagate] *)

Lemma backpropagate_None fuel won w :
  backpropagate (State := State) fuel VNone won w = (Ok tt, w).
Proof. by destruct fuel. Qed.

Lemma backpropagate_step fuel p n won w :
  heap w !! p = Some n →
  backpropagate (State := State) (S fuel) (VNode p) won w
  = backpropagate fuel (parent_value (State := State) n) (negb won)
      (World (<[p := bump won n]> (heap w)) (random_source w) (draws w) (stdout w)).
Proof.
  intros Hn. pose proof (lookup_lt_Some _ _ _ Hn) as Hlt.
  cbn [backpropagate truthy].
  unfold bind at 1. unfold add_wins at 1. unfold bind at 1, deref at 1. rewrite Hn.
  cbn [store heap random_source draws stdout].
  unfold bind at 1. unfold add_visits at 1. unfold bind at 1, deref at 1.
  cbn [heap]. rewrite list_lookup_insert_eq by done.
  cbn [store heap random_source draws stdout parent parent_action child_nodes
       untried_actions wins visits].
  rewrite list_insert_insert_eq.
  unfold bind at 1, deref at 1. cbn [heap]. rewrite list_lookup_insert_eq by done.
  reflexivity.
Qed.

(** Rewriting the counters of a node keeps every path to the root. *)
Lemma ancestors_update h p n n' q path :
  h !! p = Some n → parent n' = parent n →
  ancestors h q path → ancestors (<[p := n']> h) q path.
Proof.
  intros Hn Hpar. induction 1 as [r m Hm Hnone | r m s path Hm Hsome _ IH].
  - destruct (decide (r = p)) as [->|Hne].
    + eapply ancestors_root; [apply list_lookup_insert_eq; by eapply lookup_lt_Some|].
      congruence.
    + eapply ancestors_root; [by rewrite list_lookup_insert_ne|done].
  - destruct (decide (r = p)) as [->|Hne].
    + eapply ancestors_step;
        [apply list_lookup_insert_eq; by eapply lookup_lt_Some| |done].
      congruence.
    + eapply ancestors_step; [by rewrite list_lookup_insert_ne|done|done].
Qed.

Lemma ancestors_det h p l1 l2 :
  ancestors h p l1 → ancestors h p l2 → l1 = l2.
Proof.
  intros H1. revert l2.
  induction H1 as [r m Hm Hnone | r m s path Hm Hsome _ IH];
    intros l2 H2; inversion H2; subst; try congruence.
  f_equal. apply IH. congruence.
Qed.

Lemma ancestors_suffix h p path q :
  ancestors h p path → q ∈ path →
  ∃ path', ancestors h q path' ∧ length path' ≤ length path.
Proof.
  induction 1 as [r m Hm Hnone | r m s path Hm Hsome Hs IH]; intros Hq.
  - apply list_elem_of_singleton in Hq as ->.
    exists [r]. split; [by eapply ancestors_root|done].
  - apply elem_of_cons in Hq as [->|Hq].
    + exists (r :: path). split; [by eapply ancestors_step|done].
    + destruct (IH Hq) as (path' & Hp' & Hlen). exists path'. split; [done|simpl; lia].
Qed.

(** A path that reaches a root never passes a node twice. *)
Lemma ancestors_NoDup h p path : ancestors h p path → NoDup path.
Proof.
  induction 1 as [r m Hm Hnone | r m s path Hm Hsome Hs IH].
  - apply NoDup_singleton.
  - apply NoDup_cons. split; [|done]. intros Hr.
    destruct (ancestors_suffix _ _ _ _ Hs Hr) as (path' & Hp' & Hlen).
    assert (path' = r :: path) as ->.
    { eapply ancestors_det; [done|]. by eapply ancestors_step. }
    simpl in Hlen. lia.
Qed.

Lemma ancestors_last h p path :
  ancestors h p path →
  ∃ root n, last path = Some root ∧ h !! root = Some n ∧ parent n = None.
Proof.
  induction 1 as [r m Hm Hnone | r m s path Hm Hsome Hs IH].
  - by exists r, m.
  - destruct IH as (root & n & Hl & Hr & Hp). exists root, n. split; [|done].
    destruct path; [by inversion Hs|]. done.
Qed.

Lemma occurrences_cons p q path :
  occurrences p (q :: path)
  = (if decide (q = p) then 1 else 0) + occurrences p path.
Proof. unfold occurrences. rewrite filter_cons. by destruct (decide (q = p)). Qed.

Lemma occurrences_NoDup p path :
  NoDup path → occurrences p path = if bool_decide (p ∈ path) then 1 else 0.
Proof.
  induction 1 as [|q path Hq _ IH].
  - rewrite bool_decide_eq_false_2; [done|]. apply not_elem_of_nil.
  - rewrite occurrences_cons, IH. destruct (decide (q = p)) as [->|Hne].
    + rewrite (bool_decide_eq_false_2 _ Hq), bool_decide_eq_true_2; [done|]. by left.
    + destruct (bool_decide (p ∈ path)) eqn:E.
      * apply bool_decide_eq_true_1 in E.
        rewrite bool_decide_eq_true_2; [done|]. by right.
      * apply bool_decide_eq_false_1 in E. rewrite bool_decide_eq_false_2; [done|].
        intros [->|?]%elem_of_cons; done.
Qed.

(** With fuel for the whole path the walk ends, and each node of the store
    gains one visit per occurrence on the path. *)
Lemma backpropagate_path w node path won fuel :
  ancestors (heap w) node path → length path ≤ fuel →
  ∃ w', backpropagate (State := State) fuel (VNode node) won w = (Ok tt, w')
    ∧ ∀ p n, heap w !! p = Some n →
        ∃ n', heap w' !! p = Some n' ∧ parent n' = parent n
          ∧ visits n' = (visits n + Z.of_nat (occurrences p path))%Z.
Proof.
  intros Hpath. revert node w won fuel Hpath.
  induction path as [|r path IH]; intros r0 w won fuel Hpath Hfuel; [inversion Hpath|].
  assert (r0 = r) as -> by (by inversion Hpath).
  destruct fuel as [|fuel]; [simpl in Hfuel; lia|]. simpl in Hfuel.
  assert (Hstep : ∀ m, heap w !! r = Some m → ∀ p n, heap w !! p = Some n →
            ∃ n1, <[r := bump won m]> (heap w) !! p = Some n1 ∧ parent n1 = parent n
              ∧ visits n1 = (visits n + (if decide (r = p) then 1 else 0))%Z).
  { intros m Hm p n Hn. destruct (decide (r = p)) as [->|Hne].
    - exists (bump won m). rewrite list_lookup_insert_eq by (by eapply lookup_lt_Some).
      assert (m = n) as -> by congruence. done.
    - exists n. rewrite list_lookup_insert_ne by done. split; [done|]. split; [done|lia]. }
  inversion Hpath as [r' m Hm Hnone | r' m s path' Hm Hsome Hs]; subst.
  - rewrite (backpropagate_step fuel r m won w Hm).
    unfold parent_value. rewrite Hnone, backpropagate_None.
    eexists. split; [reflexivity|]. cbn [heap]. intros p n Hn.
    destruct (Hstep m Hm p n Hn) as (n1 & H1 & Hp1 & Hv1).
    exists n1. split; [done|]. split; [done|].
    rewrite occurrences_cons. unfold occurrences. simpl.
    destruct (decide (r = p)); lia.
  - rewrite (backpropagate_step fuel r m won w Hm).
    unfold parent_value. rewrite Hsome.
    set (w1 := World _ _ _ _).
    destruct (IH s w1 (negb won) fuel) as (w' & Hrun & Hvis).
    { subst w1. cbn [heap].
      apply (ancestors_update (heap w) r m (bump won m) s path Hm eq_refl Hs). }
    { lia. }
    exists w'. split; [done|]. intros p n Hn.
    destruct (Hstep m Hm p n Hn) as (n1 & H1 & Hp1 & Hv1).
    destruct (Hvis p n1 H1) as (n' & Hn' & Hp' & Hv').
    exists n'. split; [done|]. split; [congruence|].
    rewrite occurrences_cons. destruct (decide (r = p)); lia.
Qed.

(** ** [ucb] *)

Lemma children_elem_of n p :
  p ∈ (map_to_list (child_nodes n)).*2 ↔ ∃ a, child_nodes n !! a = Some p.
Proof.
  rewrite list_elem_of_fmap. split.
  - intros ([a p'] & -> & Hin). exists a. by apply elem_of_map_to_list in Hin.
  - intros [a Ha]. exists (a, p). split; [done|]. by apply elem_of_map_to_list.
Qed.

(** The loop of [ucb] over children that were all visited ends with the
    largest among its starting value and the children's ratios. *)
Lemma ucb_children_visited w n children max_win_ratio :
  (∀ p, p ∈ children → ∃ c, heap w !! p = Some c ∧ (0 < visits c)%Z) →
  ∃ r,
    ucb_children (exploration_factor * sqrt (ln (IZR (visits n)))) children
      max_win_ratio w = (Ok r, w)
    ∧ (r = max_win_ratio
       ∨ ∃ p c, p ∈ children ∧ heap w !! p = Some c ∧ r = ratio n c)
    ∧ (max_win_ratio <= r)%R
    ∧ ∀ p c, p ∈ children → heap w !! p = Some c → (ratio n c <= r)%R.
Proof.
  revert max_win_ratio.
  induction children as [|p children IH]; intros acc Hvis.
  - exists acc. split; [done|]. split; [by left|]. split; [lra|].
    intros p c Hp. by apply not_elem_of_nil in Hp.
  - destruct (Hvis p) as (c & Hc & Hpos); [by left|].
    cbn [ucb_children]. unfold bind at 1, deref at 1. rewrite Hc.
    destruct (visits c =? 0)%Z eqn:E0; [lia|].
    destruct (visits c <? 0)%Z eqn:E1; [lia|].
    fold (ratio n c).
    set (acc' := if Rgt_dec (ratio n c) acc then ratio n c else acc).
    assert (Hacc : (acc <= acc')%R ∧ (ratio n c <= acc')%R
                   ∧ (acc' = acc ∨ acc' = ratio n c)).
    { subst acc'.
      destruct (Rgt_dec (ratio n c) acc); split; try lra; split; try lra; auto. }
    destruct Hacc as (Hle & Hc_le & Hcases).
    destruct (IH acc') as (r & Hrun & Hfrom & Hge & Hall).
    { intros q Hq. apply Hvis. by right. }
    exists r. split; [done|]. split; [|split; [lra|]].
    + destruct Hfrom as [->|(q & d & Hq & Hd & ->)].
      * destruct Hcases as [->| ->]; [by left|].
        right. exists p, c. split; [by left|done].
      * right. exists q, d. split; [by right|done].
    + intros q d [->|Hq]%elem_of_cons Hd.
      * assert (d = c) as -> by congruence. lra.
      * by eapply Hall.
Qed.

Lemma ucb_of_children w node is_opponent n r :
  visited w node n →
  ucb_children (exploration_factor * sqrt (ln (IZR (visits n))))
    (map_to_list (child_nodes n)).*2 0%R w = (Ok r, w) →
  ucb node is_opponent w = (Ok (if is_opponent then r else (1 - r)%R), w).
Proof.
  intros (Hn & Hpos & _) Hrun.
  unfold ucb. unfold bind at 1, deref at 1. rewrite Hn.
  destruct (visits n <=? 0)%Z eqn:E; [lia|].
  unfold bind. rewrite Hrun. reflexivity.
Qed.

Lemma visited_children w node n p :
  visited w node n → p ∈ (map_to_list (child_nodes n)).*2 →
  ∃ c, heap w !! p = Some c ∧ (0 < visits c)%Z.
Proof. intros (_ & _ & Hchildren) [a Ha]%children_elem_of. by eapply Hchildren. Qed.

(** ** The claims that hold for every board *)

(** C10. Every call of [think] raises TypeError in its first iteration: the
    call [traverse_nodes(root_node)] binds one of four parameters, so the
    iteration stops there whatever the root and the world are, and [think]
    ends with nothing but the fresh, unvisited root added to the store and
    nothing printed. *)
Theorem think_raises_TypeError fuel board current_state w :
  (∀ root_node w0,
     call_traverse_nodes (State := State) fuel (Supplied root_node)
       Missing Missing Missing w0
     = (Raise TypeError, w0))
  ∧ (∀ root_node w0,
       think_iteration fuel board current_state
         (current_player board current_state) root_node w0
       = (Raise TypeError, w0))
  ∧ think fuel board current_state w
    = (Raise TypeError,
       World (heap w ++ [Build_MCTSNode None None ∅ (legal_actions board current_state) 0 0])
             (random_source w) (draws w) (stdout w)).
Proof.
  split; [reflexivity|]. split; [reflexivity|].
  unfold think. change num_nodes with (S 999). apply think_for_positive_budget.
Qed.

(** C9. [is_win] fails its assertion exactly when the board's outcome
    function yields no outcome for the state; when there is an outcome that
    records points for the bot's identity, [is_win] returns whether those
    points equal 1. *)
Theorem is_win_contract board state identity_of_bot w :
  ((is_win board state identity_of_bot w).1 = Raise AssertionError
     ↔ points_values board state = None)
  ∧ (∀ outcome points,
       points_values board state = Some outcome →
       outcome !! identity_of_bot = Some points →
       is_win board state identity_of_bot w = (Ok (points =? 1)%Z, w)).
Proof.
  unfold is_win. split.
  - destruct (points_values board state) as [outcome|]; [|done].
    destruct (outcome !! identity_of_bot); simpl; split; congruence.
  - intros outcome points -> ->. reflexivity.
Qed.

(** C8. Node accounting. Take the root that [think] creates for
    [current_state] and run any series of [expand_leaf] calls. Every node
    allocated since then (there is only the root) has as many untried actions
    and children together as its state has legal actions, and each legal
    action is either untried or a key of [child_nodes], never both and never
    neither. *)
Theorem node_accounting board current_state w calls p n :
  let w1 := (new_MCTSNode None None (legal_actions board current_state) w).2 in
  let w2 := expansions board calls w1 in
  length (heap w) ≤ p → heap w2 !! p = Some n →
  p = length (heap w) ∧ accounted board current_state n.
Proof.
  intros w1 w2 Hp Hn.
  subst w2. rewrite expansions_heap in Hn. simpl in Hn.
  assert (p = length (heap w)) as ->.
  { apply lookup_lt_Some in Hn. rewrite length_app in Hn. simpl in Hn. lia. }
  split; [done|].
  rewrite lookup_app_r, Nat.sub_diag in Hn by lia. simpl in Hn.
  injection Hn as <-. split; simpl.
  - rewrite map_size_empty. lia.
  - intros a Ha. left. split; [done | apply lookup_empty].
Qed.

(** What the loop of [ucb] amounts to, its running maximum starting at zero:
    for a node with a positive visit count whose children all have positive
    visit counts, [ucb] returns the maximum of zero and of the children's
    ratios when [is_opponent] is true, and one minus that when it is false. *)
Lemma ucb_formula w node is_opponent n :
  visited w node n →
  ∃ m, max_zero_child_ratio w n m
    ∧ ucb node is_opponent w = (Ok (if is_opponent then m else (1 - m)%R), w).
Proof.
  intros Hv.
  destruct (ucb_children_visited w n (map_to_list (child_nodes n)).*2 0%R)
    as (m & Hrun & Hfrom & Hge & Hall);
    [intros p; apply (visited_children w node n p Hv)|].
  exists m. split; [|apply (ucb_of_children w node is_opponent n m Hv Hrun)].
  split; [|split; [done|]].
  - destruct Hfrom as [->|(p & c & [a Ha]%children_elem_of & Hc & ->)]; [by left|].
    right. exists c. split; [|done]. by exists a, p.
  - intros c (a & p & Ha & Hc). eapply Hall; [|done].
    apply children_elem_of. by exists a.
Qed.

End Properties.

(** * The single-move game: what the code does where the specification
      expects a search *)

Lemma expand_leaf_root_only :
  expand_leaf 0 one_move_board Start root_only
  = (Raise TypeError, World (heap root_only) (random_source root_only) 1 []).
Proof. reflexivity. Qed.

(** C1. On the single-move game, whose root has the one action [0] leading to
    a win, [think] with any budget of at least one iteration does not return
    that action: it raises TypeError and leaves the unvisited root behind. *)
Theorem single_move_think_raises budget fuel :
  think_for (S budget) fuel one_move_board Start empty_world
  = (Raise TypeError, root_only).
Proof. reflexivity. Qed.


(** C6. On the single-move game [think] never reaches the final selection; it
    raises TypeError with the default budget. The selection itself, run on the
    root that [think] built, raises KeyError at the first untried action,
    which has no child to score. *)
Theorem single_move_final_selection fuel :
  think fuel one_move_board Start empty_world = (Raise TypeError, root_only)
  ∧ get_best_action 0 root_only = (Raise KeyError, root_only).
Proof.
  split.
  - unfold think. change num_nodes with (S 999). reflexivity.
  - reflexivity.
Qed.

(** C3. [rollout] from [Start], where the game has not ended, plays no move
    and returns [Start] itself. *)
Theorem rollout_single_move fuel :
  is_ended one_move_board Start = false
  ∧ rollout fuel one_move_board Start root_only = (Ok Start, root_only).
Proof. split; [reflexivity | apply rollout_returns_state]. Qed.

(** C4. [expand_leaf] on the root at [Start], which is not terminal and has
    the untried action [0]: after the random draw the call raises TypeError;
    no child is created and the store is as before. *)
Theorem expand_leaf_single_move :
  is_ended one_move_board Start = false
  ∧ expand_leaf 0 one_move_board Start root_only
    = (Raise TypeError, World (heap root_only) (random_source root_only) 1 []).
Proof. split; [reflexivity | apply expand_leaf_root_only]. Qed.

(** C5. [traverse_nodes] on the childless root at [Start], where the game has
    not ended: the loop body is not entered, the root is not handed to
    [expand_leaf], and the arguments come back as the pair. *)
Theorem traverse_nodes_single_move fuel :
  is_ended one_move_board Start = false
  ∧ (∃ root, heap root_only !! 0 = Some root ∧ child_nodes root = ∅)
  ∧ traverse_nodes fuel 0 one_move_board Start 1 root_only
    = (Ok (VTuple 0 Start), root_only)
  ∧ traverse_nodes fuel 0 one_move_board Start 1 root_only
    ≠ expand_leaf 0 one_move_board Start root_only.
Proof.
  split; [reflexivity|]. split; [eexists; split; reflexivity|].
  rewrite traverse_nodes_returns_pair. split; [reflexivity|].
  rewrite expand_leaf_root_only. discriminate.
Qed.

(** * The formula of [ucb] on a lost first visit *)

Lemma lost_once_visited : visited lost_once 0 lost_root.
Proof.
  split; [reflexivity|]. split; [reflexivity|].
  intros a p Ha. cbn [child_nodes lost_root] in Ha.
  apply lookup_insert_Some in Ha as [[<- <-]|[_ Hempty]].
  - eexists. split; reflexivity.
  - by rewrite lookup_empty in Hempty.
Qed.

Lemma lost_once_child c : child_of lost_once lost_root c → c = lost_child.
Proof.
  intros (a & p & Ha & Hp). cbn [child_nodes lost_root] in Ha.
  apply lookup_insert_Some in Ha as [[<- <-]|[_ Hempty]];
    [|by rewrite lookup_empty in Hempty].
  by injection Hp as <-.
Qed.

Lemma lost_once_ratio : ratio lost_root lost_child = (-1)%R.
Proof.
  unfold ratio, exploration_factor. cbn [wins visits lost_root lost_child].
  rewrite ln_1, sqrt_0, sqrt_1. lra.
Qed.

(** The maximum over the children is [-1], and [ucb] answers [0]. *)
Lemma lost_once_max : max_child_ratio lost_once lost_root (-1)%R.
Proof.
  split.
  - exists lost_child. split; [|by rewrite lost_once_ratio].
    exists 0, 1. split; reflexivity.
  - intros c ->%lost_once_child. rewrite lost_once_ratio. lra.
Qed.

Lemma lost_once_ucb : ucb 0 true lost_once = (Ok 0%R, lost_once).
Proof.
  destruct (ucb_children_visited lost_once lost_root
              (map_to_list (child_nodes lost_root)).*2 0%R)
    as (m & Hrun & Hfrom & Hge & _);
    [intros p; apply (visited_children lost_once 0 lost_root p lost_once_visited)|].
  assert (m = 0%R) as ->.
  { destruct Hfrom as [->|(p & c & [a Ha]%children_elem_of & Hc & ->)]; [done|].
    assert (c = lost_child) as -> by (apply lost_once_child; by exists a, p).
    rewrite lost_once_ratio in Hge. lra. }
  apply (ucb_of_children lost_once 0 true lost_root 0%R lost_once_visited Hrun).
Qed.

Lemma lost_once_ucb_bot : ucb 0 false lost_once = (Ok (1 - 0)%R, lost_once).
Proof.
  destruct (ucb_children_visited lost_once lost_root
              (map_to_list (child_nodes lost_root)).*2 0%R)
    as (m & Hrun & Hfrom & Hge & _);
    [intros p; apply (visited_children lost_once 0 lost_root p lost_once_visited)|].
  assert (m = 0%R) as ->.
  { destruct Hfrom as [->|(p & c & [a Ha]%children_elem_of & Hc & ->)]; [done|].
    assert (c = lost_child) as -> by (apply lost_once_child; by exists a, p).
    rewrite lost_once_ratio in Hge. lra. }
  apply (ucb_of_children lost_once 0 false lost_root 0%R lost_once_visited Hrun).
Qed.

(** The formula of the specification does not describe [ucb] on [lost_once]. *)
Lemma ucb_not_as_specified : ¬ ucb_as_specified lost_once 0 true.
Proof.
  intros Hspec.
  destruct (Hspec _ lost_once_visited) as (m & [(c & Hc & Hm) _] & Hrun).
  rewrite lost_once_ucb in Hrun. injection Hrun as <-.
  apply lost_once_child in Hc as ->. rewrite lost_once_ratio in Hm. lra.
Qed.

(** C7. On [lost_once] the root and its only child have one visit each and
    the child has lost once. Both visit counts are positive and the maximum
    over the children of [c.wins / c.visits + exploration_factor *
    sqrt(ln(node.visits)) / sqrt(c.visits)] is [-1]; yet [ucb(node, True)]
    returns [0] and [ucb(node, False)] returns [1 - 0], not [-1] and
    [1 - (-1)]: the running maximum starts at zero and a negative ratio never
    replaces it. *)
Theorem ucb_lost_once_floor :
  visited lost_once 0 lost_root
  ∧ max_child_ratio lost_once lost_root (-1)%R
  ∧ ucb 0 true lost_once = (Ok 0%R, lost_once)
  ∧ ucb 0 false lost_once = (Ok (1 - 0)%R, lost_once)
  ∧ ¬ ucb_as_specified lost_once 0 true.
Proof.
  split; [exact lost_once_visited|]. split; [exact lost_once_max|].
  split; [exact lost_once_ucb|]. split; [exact lost_once_ucb_bot|].
  exact ucb_not_as_specified.
Qed.

(** * Instances *)

Lemma is_win_contract_witness :
  is_win one_move_board Won 1 root_only = (Ok true, root_only).
Proof.
  apply (proj2 (is_win_contract one_move_board Won 1 root_only)
           (<[1%Z := 1%Z]> (<[2%Z := (-1)%Z]> ∅)) 1%Z); reflexivity.
Defined.

Lemma node_accounting_witness :
  0 = length (heap empty_world)
  ∧ accounted one_move_board Start (Build_MCTSNode None None ∅ [0] 0 0).
Proof.
  apply (node_accounting one_move_board Start empty_world
           [(0, Start); (0, Won); (0, Start)] 0
           (Build_MCTSNode None None ∅ [0] 0 0)).
  - simpl. lia.
  - reflexivity.
Defined.

Lemma lost_once_path : ancestors (heap lost_once) 1 lost_path.
Proof.
  eapply ancestors_step; [reflexivity|reflexivity|].
  eapply ancestors_root; reflexivity.
Defined.

(** * More about the engine *)

Section MoreProperties.

Context {State Action : Type} `{Countable Action} `{ActionOrder Action}.

Implicit Types (board : Board State Action) (w : world Action) (state : State).
Implicit Types (h : list (MCTSNode Action)) (n c : MCTSNode Action) (p q : addr).

(** ** [backpropagate] *)

Lemma win_delta_bound won p path :
  (- Z.of_nat (occurrences p path) ≤ win_delta won p path
   ≤ Z.of_nat (occurrences p path))%Z
  ∧ Z.even (win_delta won p path + Z.of_nat (occurrences p path)) = true.
Proof.
  revert won. induction path as [|q path IH]; intros won; [done|].
  cbn [win_delta]. rewrite occurrences_cons.
  destruct (IH (negb won)) as [Hb He].
  destruct (decide (q = p)) as [->|Hne].
  - split; [destruct won; lia|].
    replace ((if won then 1 else -1) + win_delta (negb won) p path
             + Z.of_nat (1 + occurrences p path))%Z
      with ((win_delta (negb won) p path + Z.of_nat (occurrences p path))
            + (if won then 2 else 0))%Z by (destruct won; lia).
    rewrite Z.even_add, He. by destruct won.
  - simpl. split; [lia|]. by rewrite Z.add_0_l.
Qed.

Lemma win_delta_notin won p path : p ∉ path → win_delta won p path = 0%Z.
Proof.
  revert won. induction path as [|q path IH]; intros won Hp; [done|].
  apply not_elem_of_cons in Hp as [Hne Hp]. cbn [win_delta].
  rewrite (IH _ Hp). destruct (decide (q = p)); [congruence|done].
Qed.

Lemma win_delta_index won p path i :
  NoDup path → path !! i = Some p →
  win_delta won p path = if xorb won (Nat.odd i) then 1%Z else (-1)%Z.
Proof.
  intros Hnd. revert won i. induction Hnd as [|q path Hq Hnd IH]; intros won i Hi; [done|].
  cbn [win_delta]. destruct i as [|i]; simpl in Hi.
  - injection Hi as ->. rewrite decide_True by done.
    rewrite (win_delta_notin _ _ _ Hq). by destruct won.
  - assert (q ≠ p) by (intros ->; apply Hq; by eapply list_elem_of_lookup_2).
    rewrite decide_False by done. rewrite (IH _ _ Hi), Nat.odd_succ, <- Nat.negb_odd.
    by destruct won, (Nat.odd i).
Qed.

(** The whole effect of a backpropagation on the store. *)
Lemma backpropagate_effect w node path won fuel :
  ancestors (heap w) node path → length path ≤ fuel →
  ∃ w', backpropagate (State := State) fuel (VNode node) won w = (Ok tt, w')
    ∧ length (heap w') = length (heap w)
    ∧ random_source w' = random_source w ∧ draws w' = draws w
    ∧ stdout w' = stdout w
    ∧ ∀ p n, heap w !! p = Some n →
        heap w' !! p
        = Some (Build_MCTSNode (parent n) (parent_action n) (child_nodes n)
                  (untried_actions n)
                  (wins n + win_delta won p path)
                  (visits n + Z.of_nat (occurrences p path))).
Proof.
  intros Hpath. revert node w won fuel Hpath.
  induction path as [|r path IH]; intros r0 w won fuel Hpath Hfuel; [inversion Hpath|].
  assert (r0 = r) as -> by (by inversion Hpath).
  destruct fuel as [|fuel]; [simpl in Hfuel; lia|]. simpl in Hfuel.
  assert (∃ m, heap w !! r = Some m
            ∧ (parent m = None ∧ path = [] ∨ ∃ s, parent m = Some s ∧ ancestors (heap w) s path))
    as (m & Hm & Hcases).
  { inversion Hpath; subst; eexists; (split; [done|]); [left|right]; eauto. }
  rewrite (backpropagate_step fuel r m won w Hm).
  set (w1 := World _ _ _ _).
  assert (Hw1 : ∀ p n, heap w !! p = Some n →
            heap w1 !! p = Some (if decide (r = p) then bump won n else n)).
  { intros p n Hn. subst w1. cbn [heap]. destruct (decide (r = p)) as [->|Hne].
    - rewrite list_lookup_insert_eq by (by eapply lookup_lt_Some). congruence.
    - by rewrite list_lookup_insert_ne. }
  assert (Hfinal : ∀ p n, heap w !! p = Some n → ∀ (d : Z) (k : nat),
     (let n1 := if decide (r = p) then bump won n else n in
      Build_MCTSNode (parent n1) (parent_action n1) (child_nodes n1)
        (untried_actions n1) (wins n1 + d) (visits n1 + Z.of_nat k))
     = Build_MCTSNode (parent n) (parent_action n) (child_nodes n)
         (untried_actions n)
         (wins n + ((if decide (r = p) then (if won then 1 else -1) else 0) + d))
         (visits n + Z.of_nat ((if decide (r = p) then 1 else 0) + k))).
  { intros p n _ d k. destruct (decide (r = p)); simpl; f_equal; lia. }
  destruct Hcases as [[Hnone ->]|(s & Hsome & Hs)].
  - unfold parent_value. rewrite Hnone, backpropagate_None.
    exists w1. split; [reflexivity|].
    split; [unfold w1; cbn [heap]; apply length_insert|].
    repeat (split; [reflexivity|]).
    intros p n Hn. rewrite (Hw1 p n Hn).
    rewrite occurrences_cons. cbn [win_delta]. unfold occurrences at 1. simpl.
    rewrite <- (Hfinal p n Hn 0%Z 0). simpl. rewrite !Z.add_0_r.
    by destruct (if decide (r = p) then bump won n else n).
  - unfold parent_value. rewrite Hsome.
    destruct (IH s w1 (negb won) fuel) as (w' & Hrun & Hlen & Hrs & Hdr & Hout & Heff).
    { unfold w1. cbn [heap].
      apply (ancestors_update (heap w) r m (bump won m) s path Hm eq_refl Hs). }
    { lia. }
    exists w'. split; [done|].
    split; [rewrite Hlen; unfold w1; cbn [heap]; apply length_insert|].
    repeat (split; [done|]).
    intros p n Hn. rewrite (Heff p _ (Hw1 p n Hn)).
    rewrite occurrences_cons. cbn [win_delta].
    by rewrite <- (Hfinal p n Hn).
Qed.


Lemma ancestors_preserved h h' q path :
  (∀ p n, h !! p = Some n → ∃ n', h' !! p = Some n' ∧ parent n' = parent n) →
  ancestors h q path → ancestors h' q path.
Proof.
  intros Hsame. induction 1 as [r m Hm Hnone | r m s path Hm Hsome _ IH].
  - destruct (Hsame r m Hm) as (m' & Hm' & Hp).
    apply (ancestors_root h' r m' Hm'). congruence.
  - destruct (Hsame r m Hm) as (m' & Hm' & Hp).
    apply (ancestors_step h' r m' s path Hm'); [congruence|done].
Qed.

Lemma ancestors_root_once h q path root :
  ancestors h q path → last path = Some root → occurrences root path = 1.
Proof.
  intros Hpath Hlast.
  rewrite (occurrences_NoDup root path (ancestors_NoDup h q path Hpath)).
  rewrite bool_decide_eq_true_2; [done|].
  apply last_Some in Hlast as [l' ->]. apply elem_of_app. right. by left.
Qed.

(** X1. Win/loss alternation. Backpropagation from a node whose parent
    references lead to a root ends and gives the node at position [i] of the
    path (the start is position 0) one more visit and one more win if [won]
    holds and [i] is even or [won] fails and [i] is odd, one win less
    otherwise: the sign flips at every step up. *)
Theorem backpropagate_alternates w node path won fuel :
  ancestors (heap w) node path → length path ≤ fuel →
  ∃ w', backpropagate (State := State) fuel (VNode node) won w = (Ok tt, w')
    ∧ ∀ i p n, path !! i = Some p → heap w !! p = Some n →
        ∃ n', heap w' !! p = Some n'
          ∧ wins n' = (wins n + (if xorb won (Nat.odd i) then 1 else -1))%Z
          ∧ visits n' = (visits n + 1)%Z.
Proof.
  intros Hpath Hfuel.
  destruct (backpropagate_effect w node path won fuel Hpath Hfuel)
    as (w' & Hrun & _ & _ & _ & _ & Heff).
  exists w'. split; [done|]. intros i p n Hi Hn.
  pose proof (ancestors_NoDup _ _ _ Hpath) as Hnd.
  eexists. split; [apply (Heff p n Hn)|]. cbn [wins visits].
  rewrite (win_delta_index won p path i Hnd Hi), (occurrences_NoDup p path Hnd).
  rewrite bool_decide_eq_true_2 by (by eapply list_elem_of_lookup_2). done.
Qed.

(** X2. Backpropagation changes counters only: the store keeps its size, the
    random source, the number of draws and the printed lines stay, every node
    keeps its parent, its parent action, its children and its untried
    actions, and a node off the path is left exactly as it was. *)
Theorem backpropagate_frame w node path won fuel :
  ancestors (heap w) node path → length path ≤ fuel →
  ∃ w', backpropagate (State := State) fuel (VNode node) won w = (Ok tt, w')
    ∧ length (heap w') = length (heap w)
    ∧ random_source w' = random_source w ∧ draws w' = draws w
    ∧ stdout w' = stdout w
    ∧ ∀ p n, heap w !! p = Some n →
        ∃ n', heap w' !! p = Some n'
          ∧ parent n' = parent n ∧ parent_action n' = parent_action n
          ∧ child_nodes n' = child_nodes n
          ∧ untried_actions n' = untried_actions n
          ∧ (p ∉ path → n' = n).
Proof.
  intros Hpath Hfuel.
  destruct (backpropagate_effect w node path won fuel Hpath Hfuel)
    as (w' & Hrun & Hlen & Hrs & Hdr & Hout & Heff).
  exists w'. repeat (split; [done|]). intros p n Hn.
  eexists. split; [apply (Heff p n Hn)|]. repeat (split; [done|]).
  intros Hp. rewrite (win_delta_notin won p path Hp).
  rewrite (occurrences_NoDup p path (ancestors_NoDup _ _ _ Hpath)).
  rewrite bool_decide_eq_false_2 by done.
  destruct n; simpl. f_equal; lia.
Qed.

(** X3. Backpropagation keeps the counters of every node of the store
    fitting together: wins stay between minus the visits and the visits, and
    wins plus visits stay even. *)
Theorem backpropagate_counters_fit w node path won fuel :
  ancestors (heap w) node path → length path ≤ fuel →
  (∀ p n, heap w !! p = Some n → counters_fit n) →
  ∃ w', backpropagate (State := State) fuel (VNode node) won w = (Ok tt, w')
    ∧ ∀ p n', heap w' !! p = Some n' → counters_fit n'.
Proof.
  intros Hpath Hfuel Hfit.
  destruct (backpropagate_effect w node path won fuel Hpath Hfuel)
    as (w' & Hrun & Hlen & _ & _ & _ & Heff).
  exists w'. split; [done|]. intros p n' Hn'.
  destruct (heap w !! p) as [n|] eqn:Hn.
  - rewrite (Heff p n Hn) in Hn'. injection Hn' as <-.
    destruct (Hfit p n Hn) as [Hb He].
    destruct (win_delta_bound won p path) as [Hdb Hde].
    unfold counters_fit. cbn [wins visits]. split; [lia|].
    replace (wins n + win_delta won p path
             + (visits n + Z.of_nat (occurrences p path)))%Z
      with ((wins n + visits n)
            + (win_delta won p path + Z.of_nat (occurrences p path)))%Z by lia.
    by rewrite Z.even_add, He, Hde.
  - apply lookup_ge_None in Hn. apply lookup_lt_Some in Hn'. lia.
Qed.

(** X4. A backpropagation followed by one from the same node with the opposite
    result leaves every win counter as it was and adds two visits to each
    node of the path. *)
Theorem backpropagate_win_then_loss w node path won fuel :
  ancestors (heap w) node path → length path ≤ fuel →
  ∃ w', bind (backpropagate (State := State) fuel (VNode node) won)
             (λ _, backpropagate (State := State) fuel (VNode node) (negb won)) w
        = (Ok tt, w')
    ∧ ∀ p n, heap w !! p = Some n →
        ∃ n', heap w' !! p = Some n' ∧ wins n' = wins n
          ∧ visits n' = (visits n + (if bool_decide (p ∈ path) then 2 else 0))%Z.
Proof.
  intros Hpath Hfuel.
  destruct (backpropagate_effect w node path won fuel Hpath Hfuel)
    as (w1 & Hrun1 & _ & _ & _ & _ & Heff1).
  assert (Hpath1 : ancestors (heap w1) node path).
  { eapply ancestors_preserved; [|done]. intros p n Hn.
    eexists. split; [apply (Heff1 p n Hn)|done]. }
  destruct (backpropagate_effect w1 node path (negb won) fuel Hpath1 Hfuel)
    as (w2 & Hrun2 & _ & _ & _ & _ & Heff2).
  exists w2. split; [unfold bind; by rewrite Hrun1|].
  intros p n Hn. eexists. split; [apply (Heff2 p _ (Heff1 p n Hn))|].
  cbn [wins visits].
  pose proof (ancestors_NoDup _ _ _ Hpath) as Hnd.
  rewrite (occurrences_NoDup p path Hnd).
  destruct (bool_decide (p ∈ path)) eqn:E.
  - apply bool_decide_eq_true_1 in E. apply list_elem_of_lookup_1 in E as [i Hi].
    rewrite !(win_delta_index _ p path i Hnd Hi).
    split; [|lia]. by destruct won, (Nat.odd i); simpl; lia.
  - apply bool_decide_eq_false_1 in E. rewrite !(win_delta_notin _ p path E).
    split; lia.
Qed.

(** X5. Visit conservation over a series: backpropagations from nodes whose
    parent references all end at the same root, run one after the other, add
    to the root exactly as many visits as there are calls. *)
Theorem backpropagations_root_visits w fuel calls root r :
  heap w !! root = Some r →
  (∀ call, call ∈ calls →
     ∃ path, ancestors (heap w) call.1 path ∧ last path = Some root
       ∧ length path ≤ fuel) →
  ∃ w' r', backpropagations (State := State) fuel calls w = (Ok tt, w')
    ∧ heap w' !! root = Some r'
    ∧ visits r' = (visits r + Z.of_nat (length calls))%Z.
Proof.
  revert w r. induction calls as [|call calls IH]; intros w r Hr Hcalls.
  - exists w, r. split; [done|]. split; [done|]. simpl. lia.
  - destruct (Hcalls call) as (path & Hpath & Hlast & Hfuel); [by left|].
    destruct (backpropagate_effect w call.1 path call.2 fuel Hpath Hfuel)
      as (w1 & Hrun1 & _ & _ & _ & _ & Heff1).
    pose proof (Heff1 root r Hr) as Hr1.
    rewrite (ancestors_root_once _ _ _ _ Hpath Hlast) in Hr1.
    destruct (IH w1 _ Hr1) as (w' & r' & Hrun & Hr' & Hv).
    { intros c' Hc'. destruct (Hcalls c') as (path' & Hpath' & Hlast' & Hfuel'); [by right|].
      exists path'. split; [|done].
      eapply ancestors_preserved; [|done]. intros p n Hn.
      eexists. split; [apply (Heff1 p n Hn)|done]. }
    exists w', r'. split; [|split; [done|]].
    + cbn [backpropagations]. unfold bind. by rewrite Hrun1.
    + rewrite Hv. cbn [visits length]. lia.
Qed.

(** ** [ucb] and [get_best_action] *)

Lemma ucb_children_world top children acc w :
  (ucb_children top children acc w).2 = w.
Proof.
  revert acc. induction children as [|p children IH]; intros acc; [done|].
  cbn [ucb_children]. unfold bind, deref.
  destruct (heap w !! p) as [c|]; [|done].
  destruct (visits c =? 0)%Z; [done|]. destruct (visits c <? 0)%Z; [done|].
  apply IH.
Qed.

Lemma ucb_world node is_opponent w : (ucb node is_opponent w).2 = w.
Proof.
  unfold ucb, bind, deref. destruct (heap w !! node) as [n|]; [|done].
  destruct (visits n <=? 0)%Z; [done|].
  pose proof (ucb_children_world (exploration_factor * sqrt (ln (IZR (visits n))))
                (map_to_list (child_nodes n)).*2 0%R w) as Hw.
  destruct (ucb_children _ _ _ w) as [[r|e|f] w']; simpl in *; by subst.
Qed.

Lemma get_best_action_loop_world root_node actions max_ucb best w :
  (get_best_action_loop root_node actions max_ucb best w).2 = w.
Proof.
  revert max_ucb best. induction actions as [|a actions IH]; intros mx best; [done|].
  cbn [get_best_action_loop]. unfold bind at 1, deref.
  destruct (heap w !! root_node) as [r|]; [|done].
  unfold bind at 1, getitem. destruct (child_nodes r !! a) as [child|]; [|done].
  cbn [ret]. unfold bind at 1.
  pose proof (ucb_world child true w) as Hw.
  destruct (ucb child true w) as [[s|e|f] w']; simpl in Hw; subst; [|done|done].
  destruct (Rgt_dec s mx); apply IH.
Qed.

(** X6. Scoring only reads: whether they return or raise, [ucb] and
    [get_best_action] leave the world as it was. *)
Theorem scoring_reads_only node is_opponent root_node w :
  (ucb node is_opponent w).2 = w ∧ (get_best_action root_node w).2 = w.
Proof.
  split; [apply ucb_world|].
  unfold get_best_action, bind, deref. destruct (heap w !! root_node); [|done].
  apply get_best_action_loop_world.
Qed.

(** X7. The two sides of [ucb] go together. When [ucb(node, True)] returns
    [m], [ucb(node, False)] returns [1 - m]; when [ucb(node, False)] returns
    a value, [ucb(node, True)] returns some [m] and that value is [1 - m];
    and each raises exactly the exceptions the other raises. *)
Theorem ucb_complement node w :
  (∀ m w', ucb node true w = (Ok m, w')
           → ucb node false w = (Ok (1 - m)%R, w'))
  ∧ (∀ v w', ucb node false w = (Ok v, w')
             → ∃ m, ucb node true w = (Ok m, w') ∧ v = (1 - m)%R)
  ∧ (∀ e w', ucb node true w = (Raise e, w') ↔ ucb node false w = (Raise e, w')).
Proof.
  unfold ucb, bind, deref.
  destruct (heap w !! node) as [n|]; [|by split; [|split]].
  destruct (visits n <=? 0)%Z; [by split; [|split]|].
  destruct (ucb_children _ _ _ w) as [[r|e|f] w1]; cbn [ret].
  - split; [by intros m w' [= -> <-]|]. split; [|done].
    intros v w' [= <- <-]. by exists r.
  - by split; [|split].
  - by split; [|split].
Qed.

Lemma ucb_children_zero_visit top children acc w :
  (∀ p, p ∈ children → ∃ c, heap w !! p = Some c ∧ (0 ≤ visits c)%Z) →
  (∃ p c, p ∈ children ∧ heap w !! p = Some c ∧ visits c = 0%Z) →
  ucb_children top children acc w = (Raise ZeroDivisionError, w).
Proof.
  revert acc. induction children as [|p children IH]; intros acc Hall (q & d & Hq & Hd & Hz).
  - by apply not_elem_of_nil in Hq.
  - destruct (Hall p) as (c & Hc & Hpos); [by left|].
    cbn [ucb_children]. unfold bind at 1, deref at 1. rewrite Hc.
    destruct (visits c =? 0)%Z eqn:E0; [done|].
    destruct (visits c <? 0)%Z eqn:E1; [lia|].
    apply IH.
    + intros x Hx. apply Hall. by right.
    + apply elem_of_cons in Hq as [->|Hq].
      * assert (d = c) as -> by congruence. lia.
      * by exists q, d.
Qed.

(** X8. A visited node that has a child without visits cannot be scored:
    when no child has a negative visit count, [ucb] raises ZeroDivisionError
    and changes nothing. *)
Theorem ucb_zero_visit_child w node is_opponent n :
  heap w !! node = Some n → (0 < visits n)%Z →
  (∀ a p, child_nodes n !! a = Some p →
     ∃ c, heap w !! p = Some c ∧ (0 ≤ visits c)%Z) →
  (∃ a p c, child_nodes n !! a = Some p ∧ heap w !! p = Some c
     ∧ visits c = 0%Z) →
  ucb node is_opponent w = (Raise ZeroDivisionError, w).
Proof.
  intros Hn Hv Hall (a & p & c & Ha & Hc & Hz).
  unfold ucb. unfold bind at 1, deref at 1. rewrite Hn.
  destruct (visits n <=? 0)%Z eqn:E; [lia|]. cbv zeta. unfold bind.
  rewrite (ucb_children_zero_visit _ (map_to_list (child_nodes n)).*2 0%R w);
    [done| |].
  - intros x [b Hb]%children_elem_of. by eapply Hall.
  - exists p, c. split; [|done]. apply children_elem_of. by exists a.
Qed.

(** X13. A node that was never visited cannot be scored, whatever its
    children: [ucb] raises ValueError and changes nothing. In particular the
    score of a node fresh from its constructor is a ValueError. *)
Theorem ucb_unvisited w node is_opponent n :
  heap w !! node = Some n → (visits n ≤ 0)%Z →
  ucb node is_opponent w = (Raise ValueError, w)
  ∧ ∀ parent parent_action action_list,
      bind (new_MCTSNode parent parent_action action_list)
           (λ fresh, ucb fresh is_opponent) w
      = (Raise ValueError,
         (new_MCTSNode parent parent_action action_list w).2).
Proof.
  intros Hn Hv. split.
  - unfold ucb. unfold bind at 1, deref at 1. rewrite Hn.
    by destruct (visits n <=? 0)%Z eqn:E; [|lia].
  - intros par act actions. unfold bind at 1. cbn [new_MCTSNode snd].
    unfold ucb. unfold bind at 1, deref at 1. cbn [heap].
    by rewrite lookup_app_r, Nat.sub_diag by lia.
Qed.

Lemma ratio_bound n c :
  (0 < visits n)%Z → (0 < visits c)%Z → (wins c ≤ visits c)%Z →
  (ratio n c <= 1 + exploration_factor * sqrt (ln (IZR (visits n))))%R.
Proof.
  intros Hn Hc Hw. unfold ratio.
  set (top := (exploration_factor * sqrt (ln (IZR (visits n))))%R).
  assert (Htop : (0 <= top)%R).
  { unfold top, exploration_factor. pose proof (sqrt_pos (ln (IZR (visits n)))). lra. }
  assert (Hv : (1 <= IZR (visits c))%R) by (apply IZR_le; lia).
  assert (Hs : (1 <= sqrt (IZR (visits c)))%R).
  { rewrite <- sqrt_1 at 1. apply sqrt_le_1; lra. }
  assert (Hwv : (IZR (wins c) <= IZR (visits c))%R) by (by apply IZR_le).
  assert (H1 : (IZR (wins c) / IZR (visits c) <= 1)%R).
  { apply (Rmult_le_reg_r (IZR (visits c))); [lra|].
    unfold Rdiv. rewrite Rmult_assoc, Rinv_l by lra. lra. }
  assert (H2 : (top / sqrt (IZR (visits c)) <= top)%R).
  { apply (Rmult_le_reg_r (sqrt (IZR (visits c)))); [lra|].
    unfold Rdiv. rewrite Rmult_assoc, Rinv_l by lra. nra. }
  lra.
Qed.

(** X9. Bounds. For a visited node whose children were all visited and have
    no more wins than visits, [ucb(node, True)] lies between 0 and
    [1 + exploration_factor * sqrt(ln(node.visits))], and [ucb(node, False)]
    is one minus it. *)
Theorem ucb_bounds w node n :
  visited w node n →
  (∀ c, child_of w n c → (wins c ≤ visits c)%Z) →
  ∃ m, ucb node true w = (Ok m, w)
    ∧ ucb node false w = (Ok (1 - m)%R, w)
    ∧ (0 <= m <= 1 + exploration_factor * sqrt (ln (IZR (visits n))))%R.
Proof.
  intros Hv Hwins.
  destruct (ucb_children_visited w n (map_to_list (child_nodes n)).*2 0%R)
    as (m & Hrun & Hfrom & Hge & _);
    [intros p; apply (visited_children w node n p Hv)|].
  exists m.
  split; [apply (ucb_of_children w node true n m Hv Hrun)|].
  split; [apply (ucb_of_children w node false n m Hv Hrun)|].
  split; [done|].
  destruct Hv as (Hn & Hpos & Hchildren).
  destruct Hfrom as [->|(p & c & [a Ha]%children_elem_of & Hc & ->)].
  - unfold exploration_factor. pose proof (sqrt_pos (ln (IZR (visits n)))). lra.
  - destruct (Hchildren a p Ha) as (c' & Hc' & Hcpos).
    assert (c' = c) as -> by congruence.
    apply ratio_bound; [done|done|]. apply Hwins. by exists a, p.
Qed.


Lemma scored_functional w r a s1 s2 : scored w r a s1 → scored w r a s2 → s1 = s2.
Proof. intros (c1 & Hc1 & Hs1) (c2 & Hc2 & Hs2). congruence. Qed.

(** The loop of [get_best_action]: when it returns, every action it went
    through was scored, and either the running best survived, no score
    exceeding the running maximum, or the result is an action of the list
    whose score exceeds the running maximum and is matched by none. *)
Lemma get_best_action_loop_returns w root_node r actions max_ucb best result w' :
  heap w !! root_node = Some r →
  get_best_action_loop root_node actions max_ucb best w = (Ok result, w') →
  w' = w
  ∧ (∀ a, a ∈ actions → ∃ s, scored w r a s)
  ∧ ((result = best ∧ ∀ a s, a ∈ actions → scored w r a s → (s <= max_ucb)%R)
     ∨ ∃ b sb, result = Some b ∧ b ∈ actions ∧ scored w r b sb
         ∧ (max_ucb < sb)%R
         ∧ ∀ a s, a ∈ actions → scored w r a s → (s <= sb)%R).
Proof.
  intros Hr. revert max_ucb best.
  induction actions as [|a actions IH]; intros mx best Hrun.
  - injection Hrun as <- <-. split; [done|]. split.
    + intros a Ha. by apply not_elem_of_nil in Ha.
    + left. split; [done|]. intros a s Ha. by apply not_elem_of_nil in Ha.
  - cbn [get_best_action_loop] in Hrun. unfold bind at 1, deref at 1 in Hrun.
    rewrite Hr in Hrun. unfold bind at 1, getitem in Hrun.
    destruct (child_nodes r !! a) as [child|] eqn:Hchild; [|done].
    cbn [ret] in Hrun. unfold bind at 1 in Hrun.
    pose proof (ucb_world child true w) as Hw.
    destruct (ucb child true w) as [[s|e|f] w1] eqn:Hucb; simpl in Hw; subst w1;
      [|done|done].
    assert (Ha : scored w r a s) by (by exists child).
    destruct (Rgt_dec s mx) as [Hgt|Hle].
    + destruct (IH _ _ Hrun) as (-> & Hall & Hcases). split; [done|]. split.
      * intros x [->|Hx]%elem_of_cons; [by exists s|by apply Hall].
      * right. destruct Hcases as [[-> Hmax]|(b & sb & -> & Hb & Hsb & Hlt & Hmax)].
        -- exists a, s. split; [done|]. split; [by left|]. split; [done|].
           split; [lra|]. intros x sx [->|Hx]%elem_of_cons Hsx.
           ++ rewrite (scored_functional _ _ _ _ _ Hsx Ha). lra.
           ++ by eapply Hmax.
        -- exists b, sb. split; [done|]. split; [by right|]. split; [done|].
           split; [lra|]. intros x sx [->|Hx]%elem_of_cons Hsx.
           ++ rewrite (scored_functional _ _ _ _ _ Hsx Ha). lra.
           ++ by eapply Hmax.
    + destruct (IH _ _ Hrun) as (-> & Hall & Hcases). split; [done|]. split.
      * intros x [->|Hx]%elem_of_cons; [by exists s|by apply Hall].
      * destruct Hcases as [[-> Hmax]|(b & sb & -> & Hb & Hsb & Hlt & Hmax)].
        -- left. split; [done|]. intros x sx [->|Hx]%elem_of_cons Hsx.
           ++ rewrite (scored_functional _ _ _ _ _ Hsx Ha). lra.
           ++ by eapply Hmax.
        -- right. exists b, sb. split; [done|]. split; [by right|]. split; [done|].
           split; [done|]. intros x sx [->|Hx]%elem_of_cons Hsx.
           ++ rewrite (scored_functional _ _ _ _ _ Hsx Ha). lra.
           ++ by eapply Hmax.
Qed.

(** X10. What a returning [get_best_action] has selected: every untried
    action of the root had a child that could be scored; [None] means that no
    score was above 0; an action means that it is untried, its score is above
    0 and no untried action scores higher. *)
Theorem get_best_action_selects w root_node r result w' :
  heap w !! root_node = Some r →
  get_best_action root_node w = (Ok result, w') →
  w' = w
  ∧ (∀ a, a ∈ untried_actions r → ∃ s, scored w r a s)
  ∧ match result with
    | None => ∀ a s, a ∈ untried_actions r → scored w r a s → (s <= 0)%R
    | Some b =>
        b ∈ untried_actions r
        ∧ ∃ sb, scored w r b sb ∧ (0 < sb)%R
            ∧ ∀ a s, a ∈ untried_actions r → scored w r a s → (s <= sb)%R
    end.
Proof.
  intros Hr Hrun. unfold get_best_action in Hrun.
  unfold bind at 1, deref at 1 in Hrun. rewrite Hr in Hrun.
  destruct (get_best_action_loop_returns w root_node r _ _ _ _ _ Hr Hrun)
    as (-> & Hall & Hcases).
  split; [done|]. split; [done|].
  destruct Hcases as [[-> Hmax]|(b & sb & -> & Hb & Hsb & Hlt & Hmax)]; [done|].
  split; [done|]. by exists sb.
Qed.

(** X11. On a node none of whose untried actions has a child (as the node
    accounting of the specification demands) [get_best_action] never returns
    an action: it returns [None] when nothing is untried, whatever children
    there are, and raises KeyError otherwise; the world stays as it was. *)
Theorem get_best_action_disjoint w root_node r :
  heap w !! root_node = Some r →
  (∀ a, a ∈ untried_actions r → child_nodes r !! a = None) →
  get_best_action root_node w
  = (match untried_actions r with [] => Ok None | _ :: _ => Raise KeyError end, w).
Proof.
  intros Hr Hnone. unfold get_best_action. unfold bind at 1, deref at 1.
  rewrite Hr. destruct (untried_actions r) as [|a rest]; [done|].
  cbn [get_best_action_loop]. unfold bind at 1, deref at 1.
  rewrite Hr. unfold bind at 1, getitem. by rewrite (Hnone a) by (by left).
Qed.

(** X12. [get_best_action] never selects an action whose child is a leaf: the
    child of a selected action has been visited and has a child of its own
    (the score of a node is read off its children, not off its own
    counters). *)
Theorem get_best_action_skips_leaves w root_node r b w' :
  heap w !! root_node = Some r →
  get_best_action root_node w = (Ok (Some b), w') →
  ∃ child cn, child_nodes r !! b = Some child ∧ heap w !! child = Some cn
    ∧ (0 < visits cn)%Z ∧ child_nodes cn ≠ ∅.
Proof.
  intros Hr Hrun. unfold get_best_action in Hrun.
  unfold bind at 1, deref at 1 in Hrun. rewrite Hr in Hrun.
  destruct (get_best_action_loop_returns w root_node r _ _ _ _ _ Hr Hrun)
    as (_ & _ & [[? _]|(b' & sb & Hb' & _ & (child & Hchild & Hucb) & Hpos & _)]);
    [done|].
  injection Hb' as <-.
  exists child. unfold ucb in Hucb. unfold bind at 1, deref at 1 in Hucb.
  destruct (heap w !! child) as [cn|]; [|done]. exists cn.
  destruct (visits cn <=? 0)%Z eqn:E; [done|].
  split; [done|]. split; [done|]. split; [lia|].
  intros Hempty. rewrite Hempty, map_to_list_empty in Hucb.
  cbn in Hucb. injection Hucb as <-. lra.
Qed.

(** ** [expand_leaf], [rollout], [traverse_nodes], [is_win] and [think] *)

(** X14. [expand_leaf] never expands. On a node of the store it returns
    [False] and changes nothing when the state is terminal; otherwise it
    raises IndexError without drawing when nothing is untried, and TypeError
    after exactly one draw when something is. No child is created and the
    store stays as it was. *)
Theorem expand_leaf_outcomes node board state w n :
  heap w !! node = Some n →
  expand_leaf node board state w
  = (if is_ended board state then (Ok (VBool false), w)
     else match untried_actions n with
          | [] => (Raise IndexError, w)
          | _ :: _ =>
              (Raise TypeError,
               World (heap w) (random_source w) (S (draws w)) (stdout w))
          end)
  ∧ heap (expand_leaf node board state w).2 = heap w.
Proof.
  intros Hn. split; [|apply expand_leaf_heap].
  destruct (is_ended board state) eqn:E.
  - by apply expand_leaf_terminal.
  - by apply expand_leaf_nonterminal.
Qed.

(** X15. The evaluation after a rollout sees the state the rollout started
    from: [is_win(board, rollout(board, state), id)] does what
    [is_win(board, state, id)] does, so on a state without outcome the
    evaluation fails its assertion, and no random number is drawn. *)
Theorem rollout_then_is_win fuel board state identity_of_bot w :
  bind (rollout fuel board state) (λ s, is_win board s identity_of_bot) w
  = is_win board state identity_of_bot w
  ∧ (points_values board state = None →
     bind (rollout fuel board state) (λ s, is_win board s identity_of_bot) w
     = (Raise AssertionError, w)).
Proof.
  unfold bind. rewrite rollout_returns_state.
  split; [done|]. intros Hnone. unfold is_win. by rewrite Hnone.
Qed.

(** X16. What [traverse_nodes] returns cannot be backpropagated: the result
    is the pair [(node, state)], which is truthy and has no attribute [wins],
    so handing it to [backpropagate], as [think] does with the name [node],
    raises AttributeError before any counter changes. *)
Theorem traverse_nodes_then_backpropagate fuel depth node board state
    bot_identity won w :
  bind (traverse_nodes fuel node board state bot_identity)
       (λ reached, backpropagate depth reached won) w
  = (Raise AttributeError, w).
Proof.
  unfold bind. rewrite traverse_nodes_returns_pair. by destruct depth.
Qed.

(** X17. [is_win] raises KeyError exactly when the board yields an outcome
    that has no entry for the bot's identity, returns a value exactly when
    there is such an entry, and never changes the world. *)
Theorem is_win_outcomes board state identity_of_bot w :
  (is_win board state identity_of_bot w).2 = w
  ∧ ((is_win board state identity_of_bot w).1 = Raise KeyError
     ↔ ∃ outcome, points_values board state = Some outcome
         ∧ outcome !! identity_of_bot = None)
  ∧ (∀ b, (is_win board state identity_of_bot w).1 = Ok b
     ↔ ∃ outcome points, points_values board state = Some outcome
         ∧ outcome !! identity_of_bot = Some points
         ∧ b = (points =? 1)%Z).
Proof.
  unfold is_win.
  destruct (points_values board state) as [outcome|].
  - destruct (outcome !! identity_of_bot) as [points|] eqn:E; simpl.
    + split; [done|]. split.
      * split; [done|]. intros (o & [= <-] & Ho). congruence.
      * intros b. split.
        -- intros [= <-]. by exists outcome, points.
        -- intros (o & pts & [= <-] & Ho & ->). congruence.
    + split; [done|]. split.
      * split; [|done]. intros _. by exists outcome.
      * intros b. split; [done|]. intros (o & pts & [= <-] & Ho & _). congruence.
  - simpl. split; [done|]. split.
    + split; [done|]. by intros (o & ? & _).
    + intros b. split; [done|]. by intros (o & pts & ? & _).
Qed.

(** X18. With [num_nodes] set to 0 [think] goes straight to the final
    selection on a root without children: it returns [None] and prints that
    choice when the state has no legal action, and raises KeyError without
    printing when it has one. *)
Theorem think_without_iterations fuel board current_state w :
  think_for 0 fuel board current_state w
  = match legal_actions board current_state with
    | [] =>
        (Ok None,
         World (heap w ++ [Build_MCTSNode None None ∅ [] 0 0])
               (random_source w) (draws w) (stdout w ++ [None]))
    | a :: rest =>
        (Raise KeyError,
         World (heap w ++ [Build_MCTSNode None None ∅ (a :: rest) 0 0])
               (random_source w) (draws w) (stdout w))
    end.
Proof.
  unfold think_for. unfold bind at 1. cbn [new_MCTSNode for_range].
  unfold bind at 1. cbn [ret]. unfold bind at 1.
  unfold get_best_action. unfold bind at 1, deref at 1. cbn [heap].
  rewrite lookup_app_r, Nat.sub_diag by lia. cbn [lookup list_lookup untried_actions].
  destruct (legal_actions board current_state) as [|a rest]; [done|].
  cbn [get_best_action_loop]. unfold bind at 1, deref at 1. cbn [heap].
  rewrite lookup_app_r, Nat.sub_diag by lia. cbn [lookup list_lookup child_nodes].
  unfold bind at 1, getitem. by rewrite lookup_empty.
Qed.

End MoreProperties.

(** * Further instances *)

Lemma lost_once_counters p n : heap lost_once !! p = Some n → counters_fit n.
Proof.
  destruct p as [|[|p]]; simpl; intros [= <-]; (split; [simpl; lia | reflexivity]).
Defined.

Lemma lost_once_calls call :
  call ∈ [(1, true); (0, false)] →
  ∃ path, ancestors (heap lost_once) call.1 path ∧ last path = Some 0
    ∧ length path ≤ 2.
Proof.
  intros [->|[->|Hnil%not_elem_of_nil]%elem_of_cons]%elem_of_cons; [| |done].
  - exists lost_path. split; [apply lost_once_path|]. split; [reflexivity|simpl; lia].
  - exists [0]. split; [eapply ancestors_root; reflexivity|].
    split; [reflexivity|simpl; lia].
Defined.

Lemma backpropagate_alternates_witness :
  ∃ w', backpropagate (State := position) 2 (VNode 1) true lost_once = (Ok tt, w')
    ∧ ∃ n', heap w' !! 0 = Some n' ∧ wins n' = 0%Z ∧ visits n' = 2%Z.
Proof.
  destruct (backpropagate_alternates (State := position) lost_once 1 lost_path
              true 2 lost_once_path) as (w' & Hrun & Heach); [simpl; lia|].
  exists w'. split; [exact Hrun|]. apply (Heach 1 0 lost_root); reflexivity.
Defined.

Lemma backpropagate_frame_witness :
  ∃ w', backpropagate (State := position) 2 (VNode 1) false lost_once = (Ok tt, w')
    ∧ length (heap w') = 2 ∧ draws w' = 0 ∧ stdout w' = [].
Proof.
  destruct (backpropagate_frame (State := position) lost_once 1 lost_path
              false 2 lost_once_path)
    as (w' & Hrun & Hlen & _ & Hdraws & Hout & _); [simpl; lia|].
  exists w'. split; [exact Hrun|]. split; [exact Hlen|]. split; [exact Hdraws|exact Hout].
Defined.

Lemma backpropagate_counters_fit_witness :
  ∃ w', backpropagate (State := position) 2 (VNode 1) true lost_once = (Ok tt, w')
    ∧ ∀ p n', heap w' !! p = Some n' → counters_fit n'.
Proof.
  apply (backpropagate_counters_fit (State := position) lost_once 1 lost_path
           true 2 lost_once_path); [simpl; lia | apply lost_once_counters].
Defined.

Lemma backpropagate_win_then_loss_witness :
  ∃ w', bind (backpropagate (State := position) 2 (VNode 1) true)
             (λ _, backpropagate (State := position) 2 (VNode 1) false) lost_once
        = (Ok tt, w')
    ∧ ∃ n', heap w' !! 1 = Some n' ∧ wins n' = (-1)%Z ∧ visits n' = 3%Z.
Proof.
  destruct (backpropagate_win_then_loss (State := position) lost_once 1 lost_path
              true 2 lost_once_path) as (w' & Hrun & Heach); [simpl; lia|].
  exists w'. split; [exact Hrun|]. apply (Heach 1 lost_child). reflexivity.
Defined.

Lemma backpropagations_root_visits_witness :
  ∃ w' r', backpropagations (State := position) 2 [(1, true); (0, false)] lost_once
           = (Ok tt, w')
    ∧ heap w' !! 0 = Some r' ∧ visits r' = 3%Z.
Proof.
  apply (backpropagations_root_visits (State := position) lost_once 2
           [(1, true); (0, false)] 0 lost_root); [reflexivity | apply lost_once_calls].
Defined.

Lemma ucb_complement_witness : ucb 0 false lost_once = (Ok (1 - 0)%R, lost_once).
Proof.
  apply (proj1 (ucb_complement 0 lost_once) 0%R lost_once).
  exact lost_once_ucb.
Defined.

Lemma ucb_zero_visit_child_witness :
  ucb 0 true unvisited_child = (Raise ZeroDivisionError, unvisited_child).
Proof.
  apply (ucb_zero_visit_child unvisited_child 0 true
           (Build_MCTSNode None None (<[0 := 1]> ∅) [] 1 1)).
  - reflexivity.
  - reflexivity.
  - intros a p Ha. cbn [child_nodes] in Ha.
    apply lookup_insert_Some in Ha as [[<- <-]|[_ Hempty]].
    + eexists. split; [reflexivity|]. simpl. lia.
    + by rewrite lookup_empty in Hempty.
  - exists 0, 1. eexists. split; [reflexivity|]. split; reflexivity.
Defined.

Lemma ucb_unvisited_witness :
  ucb 0 true root_only = (Raise ValueError, root_only).
Proof.
  apply (ucb_unvisited root_only 0 true (Build_MCTSNode None None ∅ [0] 0 0));
    [reflexivity | simpl; lia].
Defined.

Lemma ucb_bounds_witness :
  ∃ m, ucb 0 true lost_once = (Ok m, lost_once)
    ∧ ucb 0 false lost_once = (Ok (1 - m)%R, lost_once)
    ∧ (0 <= m <= 1 + exploration_factor * sqrt (ln (IZR (visits lost_root))))%R.
Proof.
  apply (ucb_bounds lost_once 0 lost_root lost_once_visited).
  intros c ->%lost_once_child. simpl. lia.
Defined.

Lemma three_generations_middle : visited three_generations 1 middle_node.
Proof.
  split; [reflexivity|]. split; [reflexivity|].
  intros a p Ha. cbn [child_nodes middle_node] in Ha.
  apply lookup_insert_Some in Ha as [[<- <-]|[_ Hempty]].
  - eexists. split; reflexivity.
  - by rewrite lookup_empty in Hempty.
Qed.

Lemma three_generations_best :
  get_best_action 0 three_generations = (Ok (Some 0), three_generations).
Proof.
  destruct (ucb_children_visited three_generations middle_node
              (map_to_list (child_nodes middle_node)).*2 0%R)
    as (m & Hrun & _ & _ & Hall);
    [intros p; apply (visited_children _ 1 middle_node p three_generations_middle)|].
  assert (Hm : (0 < m)%R).
  { assert (Hr : (ratio middle_node bottom_node <= m)%R).
    { apply (Hall 2); [|reflexivity]. apply children_elem_of. by exists 0. }
    unfold ratio, exploration_factor in Hr. cbn [wins visits bottom_node middle_node] in Hr.
    rewrite sqrt_1 in Hr. pose proof (sqrt_pos (ln 2)). lra. }
  pose proof (ucb_of_children three_generations 1 true middle_node m
                three_generations_middle Hrun) as Hucb.
  unfold get_best_action. unfold bind at 1, deref at 1.
  change (heap three_generations !! 0) with (Some top_node).
  cbn [untried_actions top_node get_best_action_loop].
  unfold bind at 1, deref at 1.
  change (heap three_generations !! 0) with (Some top_node).
  unfold bind at 1, getitem.
  replace (child_nodes top_node !! 0) with (Some 1) by reflexivity.
  cbn [ret]. unfold bind at 1. rewrite Hucb.
  destruct (Rgt_dec m 0); [reflexivity|lra].
Qed.

Lemma get_best_action_selects_witness :
  0 ∈ untried_actions top_node
  ∧ ∃ sb, scored three_generations top_node 0 sb ∧ (0 < sb)%R.
Proof.
  destruct (get_best_action_selects three_generations 0 top_node (Some 0)
              three_generations eq_refl three_generations_best)
    as (_ & _ & Hin & sb & Hsb & Hpos & _).
  split; [exact Hin|]. exists sb. split; [exact Hsb|exact Hpos].
Defined.

Lemma get_best_action_disjoint_witness :
  get_best_action 0 root_only = (Raise KeyError, root_only).
Proof.
  apply (get_best_action_disjoint root_only 0 (Build_MCTSNode None None ∅ [0] 0 0));
    [reflexivity|]. intros a _. apply lookup_empty.
Defined.

Lemma get_best_action_skips_leaves_witness :
  ∃ child cn, child_nodes top_node !! 0 = Some child
    ∧ heap three_generations !! child = Some cn
    ∧ (0 < visits cn)%Z ∧ child_nodes cn ≠ ∅.
Proof.
  apply (get_best_action_skips_leaves three_generations 0 top_node 0
           three_generations eq_refl three_generations_best).
Defined.

Lemma expand_leaf_outcomes_witness :
  expand_leaf 0 one_move_board Won root_only = (Ok (VBool false), root_only)
  ∧ heap (expand_leaf 0 one_move_board Won root_only).2 = heap root_only.
Proof.
  apply (expand_leaf_outcomes 0 one_move_board Won root_only
           (Build_MCTSNode None None ∅ [0] 0 0)). reflexivity.
Defined.

Lemma rollout_then_is_win_witness :
  bind (rollout 5 one_move_board Start) (λ s, is_win one_move_board s 1) root_only
  = (Raise AssertionError, root_only).
Proof.
  apply (proj2 (rollout_then_is_win 5 one_move_board Start 1 root_only)).
  reflexivity.
Defined.

Lemma is_win_outcomes_witness :
  (is_win one_move_board Won 3 root_only).1 = Raise KeyError.
Proof.
  apply (proj1 (proj2 (is_win_outcomes one_move_board Won 3 root_only))).
  eexists. split; reflexivity.
Defined.
